(** * Verification of the SSH MCP server (src/dist/index.js)

    Shallow embedding of the server's command classifier
    [isCommandDangerous], of the JavaScript regular expressions it uses,
    and of the tool handlers [create_connection], [execute_command],
    [secure_execute_command] and [close_connection] over the global
    [connections] map.

    JavaScript strings are sequences of UTF-16 code units; commands are
    modelled here as strings of code units 0..255 (Latin-1), which is what
    a Rocq [ascii] holds. *)

From Stdlib Require Import Ascii String List Bool Arith Lia.
From stdpp Require Import base gmap strings list.
Import ListNotations.

(* ------------------------------------------------------------------ *)
(** ** Characters: the JavaScript character classes used by the code *)
(* ------------------------------------------------------------------ *)

Module JsChar.

(** [\s] and the characters removed by [String.prototype.trim]
    (WhiteSpace and LineTerminator), restricted to code units 0..255:
    TAB, LF, VT, FF, CR, SPACE and NBSP (0xA0). *)
Definition is_space (c : ascii) : bool :=
  let n := nat_of_ascii c in
  ((9 <=? n) && (n <=? 13)) || (n =? 32) || (n =? 160).

(** [.] without the [s] flag: anything but a LineTerminator. *)
Definition is_dot (c : ascii) : bool :=
  let n := nat_of_ascii c in
  negb ((n =? 10) || (n =? 13)).

(** Word characters of [\b] (no [u]/[i] flag): [A-Za-z0-9_]. *)
Definition is_word (c : ascii) : bool :=
  let n := nat_of_ascii c in
  ((65 <=? n) && (n <=? 90)) || ((97 <=? n) && (n <=? 122))
  || ((48 <=? n) && (n <=? 57)) || (n =? 95).

(** [String.prototype.toLowerCase] on code units 0..255:
    A-Z and the Latin-1 capitals 0xC0..0xDE except 0xD7. *)
Definition to_lower (c : ascii) : ascii :=
  let n := nat_of_ascii c in
  if ((65 <=? n) && (n <=? 90))
     || ((192 <=? n) && (n <=? 222) && negb (n =? 215))
  then ascii_of_nat (n + 32) else c.

End JsChar.

(** [String.prototype.trim]: drop leading and trailing white space. *)
Fixpoint trim_start (l : list ascii) : list ascii :=
  match l with
  | [] => []
  | c :: l' => if JsChar.is_space c then trim_start l' else l
  end.

Definition trim (l : list ascii) : list ascii :=
  rev (trim_start (rev (trim_start l))).

Definition toLowerCase (l : list ascii) : list ascii := map JsChar.to_lower l.

(* ------------------------------------------------------------------ *)
(** ** JavaScript regular expressions (the fragment the code uses) *)
(* ------------------------------------------------------------------ *)

Module Regex.

Inductive regex : Type :=
| RChar (p : ascii -> bool)      (* a character class: one code unit *)
| REps                           (* empty pattern *)
| RCat (r1 r2 : regex)
| RAlt (r1 r2 : regex)           (* r1|r2 *)
| RStar (r : regex)              (* r* *)
| RBol                           (* ^ (no m flag: start of input) *)
| REol                           (* $ (no m flag: end of input) *)
| RWordB.                        (* \b *)

(** [\b] at position [i] of [s]. *)
Definition word_boundary (s : list ascii) (i : nat) : bool :=
  let before := match i with
                | 0 => false
                | S j => match nth_error s j with
                         | Some c => JsChar.is_word c | None => false end
                end in
  let after := match nth_error s i with
               | Some c => JsChar.is_word c | None => false end in
  xorb before after.

(** Iterations of a star: from position [i], the positions reached by
    zero or more iterations of a body whose end positions from [j] are
    [f j]. As in ECMAScript, an iteration that matches the empty string is
    not repeated; every further iteration advances, so [fuel = length s]
    iterations reach every position. *)
Fixpoint star_ends (f : nat -> list nat) (fuel i : nat) : list nat :=
  i :: match fuel with
       | 0 => []
       | S n => flat_map (fun j => if i <? j then star_ends f n j else []) (f i)
       end.

(** All positions at which [r], started at position [i] of [s], can end.
    A backtracking matcher explores exactly these, so [RegExp.test] on
    this fragment succeeds iff the list is non-empty for some start. *)
Fixpoint ends (r : regex) (s : list ascii) (i : nat) : list nat :=
  match r with
  | RChar p => match nth_error s i with
               | Some c => if p c then [S i] else []
               | None => []
               end
  | REps => [i]
  | RCat r1 r2 => flat_map (ends r2 s) (ends r1 s i)
  | RAlt r1 r2 => ends r1 s i ++ ends r2 s i
  | RStar r1 => star_ends (ends r1 s) (length s) i
  | RBol => if i =? 0 then [i] else []
  | REol => if i =? length s then [i] else []
  | RWordB => if word_boundary s i then [i] else []
  end.

Definition matches_at (r : regex) (s : list ascii) (i : nat) : bool :=
  match ends r s i with [] => false | _ => true end.

(** [RegExp.prototype.test] without the g/y flags: try every start index
    0 .. length s. *)
Definition test (r : regex) (s : list ascii) : bool :=
  existsb (matches_at r s) (seq 0 (S (length s))).

(** Pattern-building notation-like helpers. *)
Definition chr (c : ascii) : regex := RChar (fun d => Ascii.eqb d c).
Definition cls (cs : string) : regex :=
  RChar (fun d => existsb (Ascii.eqb d) (list_ascii_of_string cs)).
Definition ncls (cs : string) : regex :=
  RChar (fun d => negb (existsb (Ascii.eqb d) (list_ascii_of_string cs))).
Definition ws : regex := RChar JsChar.is_space.
Definition dot : regex := RChar JsChar.is_dot.
Definition plus (r : regex) : regex := RCat r (RStar r).

Fixpoint lit_l (l : list ascii) : regex :=
  match l with
  | [] => REps
  | [c] => chr c
  | c :: l' => RCat (chr c) (lit_l l')
  end.
Definition lit (s : string) : regex := lit_l (list_ascii_of_string s).

Fixpoint cat (rs : list regex) : regex :=
  match rs with
  | [] => REps
  | [r] => r
  | r :: rs' => RCat r (cat rs')
  end.

Fixpoint alt (rs : list regex) : regex :=
  match rs with
  | [] => RChar (fun _ => false)
  | [r] => r
  | r :: rs' => RAlt r (alt rs')
  end.

Definition alts (ss : list string) : regex := alt (map lit ss).

End Regex.

(* ------------------------------------------------------------------ *)
(** ** The classifier [isCommandDangerous] (index.js, lines 172-238) *)
(* ------------------------------------------------------------------ *)

Module Classifier.
Import Regex.
Local Open Scope string_scope.

(** [/^systemctl\s+(status|show|list-units|list-unit-files|is-active|is-enabled|is-failed|cat|help)/] *)
Definition allow_systemctl : regex :=
  cat [RBol; lit "systemctl"; plus ws;
       alts ["status"; "show"; "list-units"; "list-unit-files"; "is-active";
             "is-enabled"; "is-failed"; "cat"; "help"]].

(** [/^git\s+(status|log|show|diff|branch|remote|config\s+--list|ls-files|ls-remote)/] *)
Definition allow_git : regex :=
  cat [RBol; lit "git"; plus ws;
       alt [lit "status"; lit "log"; lit "show"; lit "diff"; lit "branch";
            lit "remote"; cat [lit "config"; plus ws; lit "--list"];
            lit "ls-files"; lit "ls-remote"]].

(** [/^(apt|yum|dnf|pacman)\s+(list|search|show|info|query)/] *)
Definition allow_pkg : regex :=
  cat [RBol; alts ["apt"; "yum"; "dnf"; "pacman"]; plus ws;
       alts ["list"; "search"; "show"; "info"; "query"]].

(** [/^docker\s+(ps|images|inspect|logs|version|info|system\s+df|system\s+info)/] *)
Definition allow_docker : regex :=
  cat [RBol; lit "docker"; plus ws;
       alt [lit "ps"; lit "images"; lit "inspect"; lit "logs"; lit "version";
            lit "info"; cat [lit "system"; plus ws; lit "df"];
            cat [lit "system"; plus ws; lit "info"]]].

(** [/^kubectl\s+(get|describe|logs|explain|version|cluster-info|config\s+view)/] *)
Definition allow_kubectl : regex :=
  cat [RBol; lit "kubectl"; plus ws;
       alt [lit "get"; lit "describe"; lit "logs"; lit "explain"; lit "version";
            lit "cluster-info"; cat [lit "config"; plus ws; lit "view"]]].

(** The five allow patterns, in the order the code tests them. *)
Definition allowPatterns : list regex :=
  [allow_systemctl; allow_git; allow_pkg; allow_docker; allow_kubectl].

(** [dangerousPatterns], in source order. Each entry is preceded by the
    source regex literal; a space is written after a final [\*] so that the
    comment stays closed. *)
Definition dangerousPatterns : list regex := [
  (* source: "/\brm\s+(-[rf]*\s+)*(\/|\*|\$|~)/" *)
  cat [RWordB; lit "rm"; plus ws; RStar (cat [lit "-"; RStar (cls "rf"); plus ws]);
       alts ["/"; "*"; "$"; "~"]];
  (* source: "/\bmv\s+.*\s+(\/|\* )/" *)
  cat [RWordB; lit "mv"; plus ws; RStar dot; plus ws; alts ["/"; "*"]];
  (* source: "/\bchmod\s+[0-7]*\s+(\/|~|\* )/" *)
  cat [RWordB; lit "chmod"; plus ws; RStar (cls "01234567"); plus ws;
       alts ["/"; "~"; "*"]];
  (* source: "/\bchown\s+.*\s+(\/|~|\* )/" *)
  cat [RWordB; lit "chown"; plus ws; RStar dot; plus ws; alts ["/"; "~"; "*"]];
  (* source: "/>[^|&]*\s*(\/|~|\* )/" *)
  cat [lit ">"; RStar (ncls "|&"); RStar ws; alts ["/"; "~"; "*"]];
  (* source: "/\bdd\s+.*of=/" *)
  cat [RWordB; lit "dd"; plus ws; RStar dot; lit "of="];
  (* source: "/\btruncate\s/" *)
  cat [RWordB; lit "truncate"; ws];
  (* source: "/\b(systemctl|service)\s+(stop|start|restart|disable|enable|mask|reload)/" *)
  cat [RWordB; alts ["systemctl"; "service"]; plus ws;
       alts ["stop"; "start"; "restart"; "disable"; "enable"; "mask"; "reload"]];
  (* source: "/\b(kill|pkill|killall)\s/" *)
  cat [RWordB; alts ["kill"; "pkill"; "killall"]; ws];
  (* source: "/\b(apt|yum|dnf|pacman)\s+(install|remove|update|upgrade|autoremove)/" *)
  cat [RWordB; alts ["apt"; "yum"; "dnf"; "pacman"]; plus ws;
       alts ["install"; "remove"; "update"; "upgrade"; "autoremove"]];
  (* source: "/\b(iptables|ufw|firewall-cmd)\s/" *)
  cat [RWordB; alts ["iptables"; "ufw"; "firewall-cmd"]; ws];
  (* source: "/\bifconfig\s+.*\s+(up|down)/" *)
  cat [RWordB; lit "ifconfig"; plus ws; RStar dot; plus ws; alts ["up"; "down"]];
  (* source: "/\b(useradd|userdel|usermod|passwd|su\s|sudo\s)/" *)
  cat [RWordB; alt [lit "useradd"; lit "userdel"; lit "usermod"; lit "passwd";
                    cat [lit "su"; ws]; cat [lit "sudo"; ws]]];
  (* source: "/\bcrontab\s+-[er]/" *)
  cat [RWordB; lit "crontab"; plus ws; lit "-"; cls "er"];
  (* source: "/\bgit\s+(push|pull|clone|reset\s+--hard|clean\s+-f|rm)/" *)
  cat [RWordB; lit "git"; plus ws;
       alt [lit "push"; lit "pull"; lit "clone"; cat [lit "reset"; plus ws; lit "--hard"];
            cat [lit "clean"; plus ws; lit "-f"]; lit "rm"]];
  (* source: "/\bdocker\s+(rm|rmi|kill|stop|exec|run|build|push|pull)/" *)
  cat [RWordB; lit "docker"; plus ws;
       alts ["rm"; "rmi"; "kill"; "stop"; "exec"; "run"; "build"; "push"; "pull"]];
  (* source: "/\bkubectl\s+(delete|apply|create|replace|patch|scale|rollout)/" *)
  cat [RWordB; lit "kubectl"; plus ws;
       alts ["delete"; "apply"; "create"; "replace"; "patch"; "scale"; "rollout"]];
  (* source: "/\b(nano|vi|vim|emacs|code)\s/" *)
  cat [RWordB; alts ["nano"; "vi"; "vim"; "emacs"; "code"]; ws];
  (* source: "/\b(tar|unzip|unrar)\s+.*-[xf]/" *)
  cat [RWordB; alts ["tar"; "unzip"; "unrar"]; plus ws; RStar dot; lit "-"; cls "xf"];
  (* source: "/\btcpdump\s/" *)
  cat [RWordB; lit "tcpdump"; ws];
  (* source: "/\bwireshark\s/" *)
  cat [RWordB; lit "wireshark"; ws];
  (* source: "/\b(gcc|g\+\+|make|cmake|javac|python\s+setup\.py\s+install)/" *)
  cat [RWordB; alt [lit "gcc"; lit "g++"; lit "make"; lit "cmake"; lit "javac";
                    cat [lit "python"; plus ws; lit "setup.py"; plus ws; lit "install"]]];
  (* source: "/&\s*$/" *)
  cat [lit "&"; RStar ws; REol];
  (* source: "/\bnohup\s/" *)
  cat [RWordB; lit "nohup"; ws];
  (* source: "/\|\s*(sh|bash|zsh|csh|tcsh|fish|python|perl|ruby|node)/" *)
  cat [lit "|"; RStar ws;
       alts ["sh"; "bash"; "zsh"; "csh"; "tcsh"; "fish"; "python"; "perl"; "ruby"; "node"]]
].

(** The normalisation [command.trim().toLowerCase()]. *)
Definition normalize (command : list ascii) : list ascii :=
  toLowerCase (trim command).

(** [isCommandDangerous]: the allow patterns are tested first, in order,
    and each returns [false]; then [dangerousPatterns.some(p => p.test(cmd))]. *)
Definition isCommandDangerous (command : string) : bool :=
  let cmd := normalize (list_ascii_of_string command) in
  if test allow_systemctl cmd then false else
  if test allow_git cmd then false else
  if test allow_pkg cmd then false else
  if test allow_docker cmd then false else
  if test allow_kubectl cmd then false else
  existsb (fun pattern => test pattern cmd) dangerousPatterns.

(** The spec's classifier verdict: [denied] exactly when the command is
    dangerous. *)
Inductive verdict := allowed | denied.

Definition classify (command : string) : verdict :=
  if isCommandDangerous command then denied else allowed.

End Classifier.

(* ------------------------------------------------------------------ *)
(** ** Server state and tool handlers (index.js, lines 25-378) *)
(* ------------------------------------------------------------------ *)

Module Machine.
(** [m.ssh]: host/port/user and one of password or keyPath. *)
Record ssh_config := mk_ssh {
  host : string; port : nat; username : string;
  password : option string; keyPath : option string }.

(** An entry of [availableMachines] (the JSON file at [MACHINES_PATH]). *)
Record t := mk_machine {
  machine_id : string; label : string; os : string; source : string;
  ssh : ssh_config }.
End Machine.

Module Server.
Import Classifier.
Local Open Scope string_scope.

(** Handles of [new SSHClient()] objects. *)
Definition client_handle := nat.

(** The value resolved by [wrapExec]. *)
Record ExecResult := mk_exec { stdout : string; stderr : string; exitCode : option nat }.

(** A value of the [connections] map:
    [{ connection_id, machine_id, title, currentPath, client }]. *)
Record ConnInfo := mk_conn {
  connection_id : string; machine_id : string; title : string;
  currentPath : string; client : client_handle }.

(** The process state the handlers read and write, together with the
    observable effects on the SSH transport. *)
Record State := mk_state {
  connections : gmap string ConnInfo;     (* the global [connections] Map *)
  clients_ended : list client_handle;     (* [client.end()] calls, latest first *)
  exec_log : list (client_handle * string); (* [client.exec(cmd)] calls, latest first *)
  next_client : client_handle;            (* the next [new SSHClient()] *)
  uuid_draws : nat }.                     (* [crypto.randomUUID()] calls so far *)

(** The events a new client emits, as far as [create_connection]'s promise
    can observe them. Its ["error"] listener stays attached after
    ["ready"], so an ["error"] while the [pwd] probe of the ready handler
    is pending settles the promise first. An ["error"] after the probe has
    settled finds the promise settled and changes nothing: that run is
    [Ready]. *)
Inductive ConnectEvents :=
| Ready              (* "ready"; no "error" before the pwd probe settles *)
| HandshakeError     (* "error" (handshake, authentication or configuration
                        failure); no "ready" *)
| ErrorDuringProbe.  (* "ready", then "error" while the pwd probe is pending *)

(** The collaborators: the machine inventory loaded at start-up, the UUID
    generator, the SSH library's events and the remote side's answer to
    each [client.exec]. *)
Record Env := mk_env {
  availableMachines : list Machine.t;
  randomUUID : nat -> string;               (* the n-th draw *)
  ssh_connect : client_handle -> Machine.t -> ConnectEvents;
  (** Outcome of [client.exec(command)] given the calls issued before:
      [None] when the callback receives [err], otherwise the output
      collected until the stream's ["close"]. *)
  ssh_exec : list (client_handle * string) -> client_handle -> string -> option ExecResult }.

(** Error kinds of the thrown [Error]s. *)
Inductive ErrorKind :=
| InvalidArgument   (* "Both machine_id and title are required." / "Command cannot be empty." *)
| NotFound          (* "Unknown machine_id ..." / "connection_id ... not found." *)
| ConnectionError   (* "error" event, or failure of the initial pwd *)
| ExecError         (* wrapExec rejected *)
| PolicyViolation   (* "Command contains potentially dangerous operations ..." *)
| UnknownTool.

(** [get_available_connections] lists [{machine_id, label, os, source}]
    of each machine: no credentials. *)
Record MachineView := mk_machine_view {
  v_machine_id : string; v_label : string; v_os : string; v_source : string }.

(** [get_connections] lists [{connection_id, machine_id, title,
    currentPath}] of each session: no client. *)
Record ConnView := mk_conn_view {
  v_connection_id : string; v_conn_machine_id : string;
  v_title : string; v_currentPath : string }.

(** The array of [get_connections] follows the Map's insertion order; the
    reply here keeps the views by [connection_id] and leaves that order
    out. *)
Inductive Reply :=
| RMachines (ms : list MachineView)
| RCreated (connection_id machine_id title currentPath : string)
| RConnections (cs : gmap string ConnView)
| ROutput (r : ExecResult)
| RClosed.

(** A handler either throws (left) or returns (right), and leaves a state. *)
Definition Outcome := ((ErrorKind + Reply) * State)%type.

Definition set_connections (st : State) (m : gmap string ConnInfo) : State :=
  mk_state m (clients_ended st) (exec_log st) (next_client st) (uuid_draws st).

Definition end_client (st : State) (c : client_handle) : State :=
  mk_state (connections st) (c :: clients_ended st) (exec_log st) (next_client st) (uuid_draws st).

(** [string.trim()] on a Rocq string. *)
Definition trim_s (s : string) : string := string_of_list_ascii (trim (list_ascii_of_string s)).

(** JavaScript truthiness of an optional string argument: [undefined] and
    [""] are falsy. *)
Definition truthy (o : option string) : option string :=
  match o with
  | Some s => if String.eqb s "" then None else Some s
  | None => None
  end.

(** [!command?.trim()]: the command is missing or blank. *)
Definition blank_command (o : option string) : bool :=
  match o with
  | Some c => match trim (list_ascii_of_string c) with [] => true | _ => false end
  | None => true
  end.

(** [findMachine]: [availableMachines.find(m => m.machine_id === machine_id)]. *)
Definition findMachine (env : Env) (mid : string) : option Machine.t :=
  List.find (fun m => String.eqb (Machine.machine_id m) mid) (availableMachines env).

(** [wrapExec(client, command)]: one call of [client.exec]. *)
Definition wrapExec (env : Env) (st : State) (c : client_handle) (command : string)
  : option ExecResult * State :=
  (ssh_exec env (exec_log st) c command,
   mk_state (connections st) (clients_ended st) ((c, command) :: exec_log st)
            (next_client st) (uuid_draws st)).

(** The directory-change test of [execute_command]:
    [/^cd\\s+/] — in a regex literal [\\] is one backslash, so the pattern
    is [^], [c], [d], a backslash, then one or more [s]. *)
Definition cd_regex : Regex.regex :=
  Regex.cat [Regex.RBol; Regex.lit "cd\"; Regex.plus (Regex.chr "s"%char)].

(** [create_connection] (lines 254-298). ["ready"] runs the [pwd] probe;
    when it returns, the ready handler registers the session
    ([connections.set]) and resolves, and when it fails, it ends the client
    and rejects. ["error"] rejects. The promise keeps the first settlement:
    after an ["error"] during the probe, the ready handler still runs to
    its end, but its [resolve] or [reject] is a no-op. *)
Definition create_connection (env : Env) (machine_id title : option string)
  (st : State) : Outcome :=
  match truthy machine_id, truthy title with
  | Some mid, Some t =>
    match findMachine env mid with
    | None => (inl NotFound, st)
    | Some machine =>
      let client := next_client st in
      let connection_id := randomUUID env (uuid_draws st) in
      let st1 := mk_state (connections st) (clients_ended st) (exec_log st)
                          (S (next_client st)) (S (uuid_draws st)) in
      match ssh_connect env client machine with
      | HandshakeError => (inl ConnectionError, st1)
      | ev =>
        let (r, st2) := wrapExec env st1 client "pwd" in
        let (res, st3) :=
          match r with
          | Some out =>
            let connInfo := mk_conn connection_id mid t (trim_s (stdout out)) client in
            ((inr (RCreated connection_id mid t (currentPath connInfo)) : ErrorKind + Reply),
             set_connections st2 (<[connection_id := connInfo]> (connections st2)))
          | None => (inl ConnectionError, end_client st2 client)
          end in
        match ev with
        | ErrorDuringProbe => (inl ConnectionError, st3)  (* rejected by "error" *)
        | _ => (res, st3)
        end
      end
    end
  | _, _ => (inl InvalidArgument, st)
  end.

(** [execute_command] (lines 316-337). [connections.get(connection_id)]
    with a missing [connection_id] ([undefined]) finds nothing. *)
Definition execute_command (env : Env) (connection_id command : option string)
  (st : State) : Outcome :=
  match command with
  | Some c =>
    if blank_command command then (inl InvalidArgument, st) else
    match connection_id with
    | None => (inl NotFound, st)
    | Some k =>
    match connections st !! k with
    | None => (inl NotFound, st)
    | Some conn =>
      let (r, st1) := wrapExec env st (client conn) c in
      match r with
      | None => (inl ExecError, st1)
      | Some out =>
        (* update PWD if the agent just cd'd somewhere: the stored [conn]
           object (the entry under [k]) is mutated *)
        if Regex.test cd_regex (trim (list_ascii_of_string c)) then
          let (r2, st2) := wrapExec env st1 (client conn) "pwd" in
          match r2 with
          | None => (inl ExecError, st2)
          | Some cwd =>
            let conn' := mk_conn (Server.connection_id conn) (Server.machine_id conn)
                           (Server.title conn) (trim_s (stdout cwd)) (client conn) in
            (inr (ROutput out), set_connections st2 (<[k := conn']> (connections st2)))
          end
        else (inr (ROutput out), st1)
      end
    end
    end
  | None => (inl InvalidArgument, st)
  end.

(** [secure_execute_command] (lines 338-358). *)
Definition secure_execute_command (env : Env) (connection_id command : option string)
  (st : State) : Outcome :=
  match command with
  | Some c =>
    if blank_command command then (inl InvalidArgument, st) else
    match connection_id with
    | None => (inl NotFound, st)
    | Some k =>
    match connections st !! k with
    | None => (inl NotFound, st)
    | Some conn =>
      if isCommandDangerous c then (inl PolicyViolation, st) else
      let (r, st1) := wrapExec env st (client conn) c in
      match r with
      | None => (inl ExecError, st1)
      | Some out => (inr (ROutput out), st1)
      end
    end
    end
  | None => (inl InvalidArgument, st)
  end.

(** [close_connection] (lines 360-375). *)
Definition close_connection (connection_id : option string) (st : State) : Outcome :=
  match connection_id with
  | None => (inl NotFound, st)
  | Some k =>
    match connections st !! k with
    | None => (inl NotFound, st)
    | Some conn =>
      let st1 := end_client st (client conn) in
      (inr RClosed, set_connections st1 (delete k (connections st1)))
    end
  end.

(** The requests of the [CallToolRequestSchema] handler. *)
Inductive Request :=
| GetAvailableConnections
| CreateConnection (machine_id title : option string)
| GetConnections
| ExecuteCommand (connection_id command : option string)
| SecureExecuteCommand (connection_id command : option string)
| CloseConnection (connection_id : option string)
| OtherTool (name : string).

Definition handle (env : Env) (req : Request) (st : State) : Outcome :=
  match req with
  | GetAvailableConnections =>
    (inr (RMachines (map (fun m => mk_machine_view (Machine.machine_id m)
                          (Machine.label m) (Machine.os m) (Machine.source m))
                       (availableMachines env))), st)
  | CreateConnection mid t => create_connection env mid t st
  | GetConnections =>
    (inr (RConnections (fmap (fun c => mk_conn_view (Server.connection_id c)
                             (Server.machine_id c) (title c) (currentPath c))
                          (connections st))), st)
  | ExecuteCommand k c => execute_command env k c st
  | SecureExecuteCommand k c => secure_execute_command env k c st
  | CloseConnection k => close_connection k st
  | OtherTool _ => (inl UnknownTool, st)
  end.

(** Requests served one after the other; the final state. *)
Fixpoint run (env : Env) (reqs : list Request) (st : State) : State :=
  match reqs with
  | [] => st
  | req :: reqs' => run env reqs' (snd (handle env req st))
  end.

(** The state at start-up. *)
Definition initial_state : State := mk_state ∅ [] [] 0 0.

End Server.

(* ------------------------------------------------------------------ *)
(** ** A concrete deployment used to evaluate the handlers *)
(* ------------------------------------------------------------------ *)

Module Demo.
Import Server.
Local Open Scope string_scope.

Definition web01 : Machine.t :=
  Machine.mk_machine "web-01" "Web server" "ubuntu" "aws"
    (Machine.mk_ssh "192.168.1.11" 22 "user" (Some "secret") None).

(** The n-th UUID: ["conn-"] followed by n letters [x]; all distinct. *)
Definition uuid (n : nat) : string :=
  "conn-" ++ string_of_list_ascii (repeat "x"%char n).

(** The remote shell: [pwd] answers [/tmp] once a [cd /tmp] has run,
    [/home/user] before; other commands print nothing. *)
Definition remote (log : list (client_handle * string)) (c : client_handle)
  (command : string) : option ExecResult :=
  if String.eqb command "pwd" then
    if existsb (fun e => String.eqb (snd e) "cd /tmp") log
    then Some (mk_exec "/tmp" "" (Some 0))
    else Some (mk_exec "/home/user" "" (Some 0))
  else Some (mk_exec "" "" (Some 0)).

Definition env_ok : Env := mk_env [web01] uuid (fun _ _ => Ready) remote.

(** The same deployment when the SSH handshake fails. *)
Definition env_handshake_fails : Env := mk_env [web01] uuid (fun _ _ => HandshakeError) remote.

(** The same deployment when the connection drops while the [pwd] probe
    runs: the client emits ["error"], then the probe's stream closes with
    the output received so far. *)
Definition env_drop_during_probe : Env :=
  mk_env [web01] uuid (fun _ _ => ErrorDuringProbe) remote.

(** The same deployment when every [client.exec] fails. *)
Definition env_exec_fails : Env :=
  mk_env [web01] uuid (fun _ _ => Ready) (fun _ _ _ => None).

(** One open session ["conn-"] on [web-01]. *)
Definition st_open : State :=
  snd (create_connection env_ok (Some "web-01") (Some "deploy") initial_state).

(** A UUID generator that repeats: every draw is ["conn-"]. *)
Definition env_uuid_repeats : Env := mk_env [web01] (fun _ => "conn-") (fun _ _ => Ready) remote.

(** A deployment listing [web-01] twice, with different labels. *)
Definition web01_bis : Machine.t :=
  Machine.mk_machine "web-01" "Web server (copy)" "debian" "gcp"
    (Machine.mk_ssh "192.168.1.12" 22 "admin" None (Some "/root/.ssh/id_rsa")).

Definition env_duplicate : Env := mk_env [web01; web01_bis] uuid (fun _ _ => Ready) remote.

End Demo.

(** The registry's bookkeeping invariant: every session is stored under its
    own [connection_id]; its client was created by [new SSHClient()] and
    has not been ended; two sessions never share a client; every ended
    client was created. *)
Module Registry.
Import Server.

Record registry_ok (st : State) : Prop := {
  ok_key : forall k c, connections st !! k = Some c -> connection_id c = k;
  ok_alloc : forall k c, connections st !! k = Some c -> client c < next_client st;
  ok_ended : forall x, In x (clients_ended st) -> x < next_client st;
  ok_live : forall k c, connections st !! k = Some c -> ~ In (client c) (clients_ended st);
  ok_distinct : forall k1 k2 c1 c2, connections st !! k1 = Some c1 ->
    connections st !! k2 = Some c2 -> client c1 = client c2 -> k1 = k2 }.

End Registry.

(* ------------------------------------------------------------------ *)
(** ** Properties of the classifier *)
(* ------------------------------------------------------------------ *)

Module ClassifierFacts.
Import Regex Classifier.
Local Open Scope string_scope.

Lemma existsb_all_false {A} (f : A -> bool) (l : list A) :
  (forall x, In x l -> f x = false) -> existsb f l = false.
Proof.
  intros H. destruct (existsb f l) eqn:E; [|reflexivity].
  apply existsb_exists in E as [x [Hin Hx]]. rewrite H in Hx by exact Hin.
  discriminate.
Qed.

(** A blank command (empty after [trim]) is never dangerous. *)
Lemma blank_not_dangerous (c : string) :
  trim (list_ascii_of_string c) = [] -> isCommandDangerous c = false.
Proof.
  intros E. unfold isCommandDangerous, normalize. rewrite E. vm_compute. reflexivity.
Qed.

(** The classifier as a function of the normalised command. *)
Lemma isCommandDangerous_normalized (c : string) :
  isCommandDangerous c =
  let cmd := normalize (list_ascii_of_string c) in
  if existsb (fun a => test a cmd) allowPatterns then false
  else existsb (fun p => test p cmd) dangerousPatterns.
Proof.
  unfold isCommandDangerous; cbn zeta. unfold allowPatterns; simpl existsb.
  destruct (test allow_systemctl _); [reflexivity|].
  destruct (test allow_git _); [reflexivity|].
  destruct (test allow_pkg _); [reflexivity|].
  destruct (test allow_docker _); [reflexivity|].
  destruct (test allow_kubectl _); reflexivity.
Qed.

(** The command of the allow-precedence example matches both lists. *)
Example git_log_pipe_matches_deny :
  existsb (fun p => test p (normalize (list_ascii_of_string "git log | sh")))
    dangerousPatterns = true.
Proof. vm_compute. reflexivity. Qed.

(** For contrast with C10: with the exact tool name the install is denied. *)
Example apt_install_denied : classify "apt install nginx" = denied.
Proof. vm_compute. reflexivity. Qed.

(** C3: if the normalised (trimmed, lower-cased) command matches an
    allow-list pattern, the verdict is [allowed], whatever the deny-list
    says: the allow-list is checked first. *)
Theorem classify_allow_list_wins (c : string) (a : regex) :
  In a allowPatterns ->
  test a (normalize (list_ascii_of_string c)) = true ->
  classify c = allowed.
Proof.
  intros Hin Ht. unfold classify. rewrite isCommandDangerous_normalized. cbn zeta.
  assert (E : existsb (fun a => test a (normalize (list_ascii_of_string c)))
                allowPatterns = true) by (apply existsb_exists; eauto).
  rewrite E. reflexivity.
Qed.

Lemma classify_allow_list_wins_witness :
  In allow_git allowPatterns /\
  test allow_git (normalize (list_ascii_of_string "git log | sh")) = true /\
  classify "git log | sh" = allowed.
Proof.
  assert (Hin : In allow_git allowPatterns) by (simpl; tauto).
  assert (Ht : test allow_git (normalize (list_ascii_of_string "git log | sh")) = true)
    by (vm_compute; reflexivity).
  split; [exact Hin|]. split; [exact Ht|].
  exact (classify_allow_list_wins "git log | sh" allow_git Hin Ht).
Defined.

(** C4: a command whose normalised form matches no allow pattern and no
    deny pattern is [allowed] (default-permit); e.g. ["echo hello"]. *)
Theorem classify_default_permit (c : string) :
  (forall a, In a allowPatterns -> test a (normalize (list_ascii_of_string c)) = false) ->
  (forall p, In p dangerousPatterns -> test p (normalize (list_ascii_of_string c)) = false) ->
  classify c = allowed.
Proof.
  intros Ha Hd. unfold classify. rewrite isCommandDangerous_normalized. cbn zeta.
  rewrite (existsb_all_false _ _ Ha), (existsb_all_false _ _ Hd). reflexivity.
Qed.

Lemma classify_default_permit_witness : classify "echo hello" = allowed.
Proof.
  apply classify_default_permit.
  - intros a Ha. simpl in Ha.
    repeat (destruct Ha as [<-|Ha]; [vm_compute; reflexivity|]). destruct Ha.
  - intros p Hp. unfold dangerousPatterns in Hp.
    repeat (destruct Hp as [<-|Hp]; [vm_compute; reflexivity|]). destruct Hp.
Defined.

(** C5: the deny and allow coverage examples of the spec. *)
Theorem classify_coverage_examples :
  classify "rm -rf /" = denied /\ classify "sudo reboot" = denied /\
  classify "docker run ubuntu" = denied /\ classify "kubectl delete pod x" = denied /\
  classify "systemctl status nginx" = allowed /\ classify "git log" = allowed /\
  classify "kubectl get pods" = allowed.
Proof. repeat split; vm_compute; reflexivity. Qed.

(** C9: deny patterns are tried at every position of the normalised
    command, not only at its start: when no allow pattern matches, a match
    of a deny pattern starting at any index makes the command denied; so
    ["echo kill switch"] and ["echo sudo hello"] are denied. *)
Theorem classify_deny_anywhere (c : string) (p : regex) (i : nat) :
  (forall a, In a allowPatterns -> test a (normalize (list_ascii_of_string c)) = false) ->
  In p dangerousPatterns ->
  i <= length (normalize (list_ascii_of_string c)) ->
  matches_at p (normalize (list_ascii_of_string c)) i = true ->
  classify c = denied /\
  classify "echo kill switch" = denied /\ classify "echo sudo hello" = denied.
Proof.
  intros Ha Hp Hi Hm. split; [|split; vm_compute; reflexivity].
  unfold classify. rewrite isCommandDangerous_normalized. cbn zeta.
  rewrite (existsb_all_false _ _ Ha).
  assert (E : existsb (fun p => test p (normalize (list_ascii_of_string c)))
                dangerousPatterns = true).
  { apply existsb_exists. exists p. split; [exact Hp|].
    unfold test. apply existsb_exists. exists i. split; [|exact Hm].
    apply in_seq. lia. }
  rewrite E. reflexivity.
Qed.

(** The pattern [\b(kill|pkill|killall)\s], 9th of the list. *)
Definition kill_pattern : regex :=
  cat [RWordB; alts ["kill"; "pkill"; "killall"]; ws].

Lemma classify_deny_anywhere_witness :
  classify "echo kill switch" = denied /\
  classify "echo kill switch" = denied /\ classify "echo sudo hello" = denied.
Proof.
  apply (classify_deny_anywhere "echo kill switch" kill_pattern 5).
  - intros a Ha. simpl in Ha.
    repeat (destruct Ha as [<-|Ha]; [vm_compute; reflexivity|]). destruct Ha.
  - unfold dangerousPatterns, kill_pattern. simpl. tauto.
  - vm_compute. lia.
  - vm_compute. reflexivity.
Defined.


End ClassifierFacts.

(* ------------------------------------------------------------------ *)
(** ** Properties of the tool handlers *)
(* ------------------------------------------------------------------ *)

Module ServerFacts.
Import Classifier Server Demo.
Local Open Scope string_scope.

(** [/^cd\\s+/] does not match ["cd /tmp"] (the pattern wants a literal
    backslash after [cd]); it matches ["cd\s"]. *)
Lemma cd_regex_cd_tmp :
  Regex.test cd_regex (trim (list_ascii_of_string "cd /tmp")) = false.
Proof. vm_compute. reflexivity. Qed.

Lemma cd_regex_literal_backslash :
  Regex.test cd_regex (trim (list_ascii_of_string "cd\s")) = true.
Proof. vm_compute. reflexivity. Qed.

(** C1 (evaluation at the failing input): on an open session,
    [execute_command] with ["cd /tmp"] issues the command alone, no
    [pwd] probe follows, and the registry (so [currentPath]) is
    unchanged. *)
Theorem execute_command_cd_tmp_not_tracked (env : Env) (st : State)
  (k : string) (conn : ConnInfo) (out : ExecResult) :
  connections st !! k = Some conn ->
  ssh_exec env (exec_log st) (client conn) "cd /tmp" = Some out ->
  execute_command env (Some k) (Some "cd /tmp") st =
  (inr (ROutput out),
   mk_state (connections st) (clients_ended st)
            ((client conn, "cd /tmp") :: exec_log st) (next_client st) (uuid_draws st)).
Proof.
  intros Hk Hx. unfold execute_command.
  assert (Hb : blank_command (Some "cd /tmp") = false) by reflexivity.
  rewrite Hb, Hk. unfold wrapExec. rewrite Hx. rewrite cd_regex_cd_tmp. reflexivity.
Qed.

Lemma execute_command_cd_tmp_not_tracked_witness :
  connections st_open !! "conn-" = Some (mk_conn "conn-" "web-01" "deploy" "/home/user" 0) /\
  execute_command env_ok (Some "conn-") (Some "cd /tmp") st_open =
  (inr (ROutput (mk_exec "" "" (Some 0))),
   mk_state (connections st_open) (clients_ended st_open)
            ((0, "cd /tmp") :: exec_log st_open) (next_client st_open) (uuid_draws st_open)).
Proof.
  assert (Hk : connections st_open !! "conn-" = Some (mk_conn "conn-" "web-01" "deploy" "/home/user" 0))
    by reflexivity.
  split; [exact Hk|].
  apply (execute_command_cd_tmp_not_tracked env_ok st_open "conn-" _ _ Hk).
  reflexivity.
Defined.

(** A command whose trimmed form does not match the [cd] test (e.g.
    ["ls"]) leaves the registry unchanged and issues one exec. *)
Lemma execute_command_no_cd_no_probe (env : Env) (st : State) (k c : string)
  (conn : ConnInfo) (out : ExecResult) :
  blank_command (Some c) = false ->
  connections st !! k = Some conn ->
  Regex.test cd_regex (trim (list_ascii_of_string c)) = false ->
  ssh_exec env (exec_log st) (client conn) c = Some out ->
  execute_command env (Some k) (Some c) st =
  (inr (ROutput out),
   mk_state (connections st) (clients_ended st)
            ((client conn, c) :: exec_log st) (next_client st) (uuid_draws st)).
Proof.
  intros Hb Hk Hcd Hx. unfold execute_command. rewrite Hb, Hk.
  unfold wrapExec. rewrite Hx, Hcd. reflexivity.
Qed.

(** C2: a command the classifier denies, sent to [secure_execute_command]
    on an open session, fails with [PolicyViolation] and leaves the whole
    state as it was: no [client.exec] call, no session change. *)
Theorem secure_execute_denied_no_remote_call (env : Env) (st : State)
  (k c : string) (conn : ConnInfo) :
  connections st !! k = Some conn ->
  classify c = denied ->
  secure_execute_command env (Some k) (Some c) st = (inl PolicyViolation, st).
Proof.
  intros Hk Hd. unfold classify in Hd.
  destruct (isCommandDangerous c) eqn:E; [|discriminate].
  unfold secure_execute_command.
  assert (Hb : blank_command (Some c) = false).
  { unfold blank_command. destruct (trim (list_ascii_of_string c)) eqn:T; [|reflexivity].
    rewrite ClassifierFacts.blank_not_dangerous in E by exact T. discriminate. }
  rewrite Hb, Hk, E. reflexivity.
Qed.

Lemma secure_execute_denied_no_remote_call_witness :
  secure_execute_command env_ok (Some "conn-") (Some "rm -rf /") st_open
  = (inl PolicyViolation, st_open).
Proof.
  apply (secure_execute_denied_no_remote_call env_ok st_open "conn-" "rm -rf /"
           (mk_conn "conn-" "web-01" "deploy" "/home/user" 0)).
  - reflexivity.
  - vm_compute. reflexivity.
Defined.

(** [findMachine] finds nothing for an id no inventory entry carries. *)
Lemma findMachine_none (env : Env) (mid : string) :
  (forall m, In m (availableMachines env) -> Machine.machine_id m <> mid) ->
  findMachine env mid = None.
Proof.
  unfold findMachine. induction (availableMachines env) as [|m ms IH]; intros H; [reflexivity|].
  simpl. destruct (String.eqb_spec (Machine.machine_id m) mid) as [E|_].
  - exfalso. apply (H m); [left; reflexivity | exact E].
  - apply IH. intros m' Hm'. apply H. right. exact Hm'.
Qed.

Lemma truthy_nonempty (s : string) : s <> "" -> truthy (Some s) = Some s.
Proof.
  intros H. unfold truthy. destruct (String.eqb_spec s "") as [E|_]; [contradiction|reflexivity].
Qed.

(** A non-empty [machine_id] that no inventory entry carries (with a
    non-empty title): [create_connection] fails with [NotFound] and leaves
    the state untouched. *)
Lemma create_connection_unknown_machine (env : Env) (st : State) (mid title : string) :
  mid <> "" -> title <> "" ->
  (forall m, In m (availableMachines env) -> Machine.machine_id m <> mid) ->
  create_connection env (Some mid) (Some title) st = (inl NotFound, st).
Proof.
  intros Hm Ht Hinv. unfold create_connection.
  rewrite (truthy_nonempty mid Hm), (truthy_nonempty title Ht), (findMachine_none env mid Hinv).
  reflexivity.
Qed.

(** A failed [create_connection] changes the registry only on one path:
    the machine is found and the client emits ["error"] while the [pwd]
    probe of its ready handler is pending. *)
Lemma create_connection_failure_registry (env : Env) (st st' : State)
  (mid title : option string) (e : ErrorKind) :
  create_connection env mid title st = (inl e, st') ->
  connections st' = connections st \/
  exists m machine, truthy mid = Some m /\ findMachine env m = Some machine /\
    ssh_connect env (next_client st) machine = ErrorDuringProbe.
Proof.
  intros H. unfold create_connection in H.
  destruct (truthy mid) as [m|]; [|injection H as _ <-; left; reflexivity].
  destruct (truthy title) as [t|]; [|injection H as _ <-; left; reflexivity].
  destruct (findMachine env m) as [machine|] eqn:Hf; [|injection H as _ <-; left; reflexivity].
  destruct (ssh_connect env _ machine) eqn:Hc.
  - unfold wrapExec in H. simpl in H.
    destruct (ssh_exec env _ _ _); [discriminate|].
    injection H as _ <-. left. reflexivity.
  - injection H as _ <-. left. reflexivity.
  - right. exists m, machine. auto.
Qed.

(** C6: when the client emits ["ready"] and then ["error"] while the [pwd]
    probe is pending, and the probe's stream still closes with output,
    [create_connection] fails with [ConnectionError] and yet registers the
    session under the drawn [connection_id], with a client it never
    ends. *)
Theorem create_connection_error_during_probe_registers (env : Env) (st : State)
  (mid title : string) (machine : Machine.t) (out : ExecResult) :
  mid <> "" -> title <> "" ->
  findMachine env mid = Some machine ->
  ssh_connect env (next_client st) machine = ErrorDuringProbe ->
  ssh_exec env (exec_log st) (next_client st) "pwd" = Some out ->
  exists st',
    create_connection env (Some mid) (Some title) st = (inl ConnectionError, st') /\
    connections st' !! randomUUID env (uuid_draws st)
      = Some (mk_conn (randomUUID env (uuid_draws st)) mid title
                      (trim_s (stdout out)) (next_client st)) /\
    clients_ended st' = clients_ended st.
Proof.
  intros Hm Ht Hf Hc Hx. unfold create_connection.
  rewrite (truthy_nonempty mid Hm), (truthy_nonempty title Ht), Hf, Hc.
  unfold wrapExec. simpl. rewrite Hx.
  eexists. split; [reflexivity|]. split; [|reflexivity].
  simpl. apply lookup_insert_eq.
Qed.

Lemma create_connection_error_during_probe_registers_witness :
  exists st',
    create_connection env_drop_during_probe (Some "web-01") (Some "deploy") initial_state
      = (inl ConnectionError, st') /\
    connections st' !! "conn-" = Some (mk_conn "conn-" "web-01" "deploy" "/home/user" 0) /\
    clients_ended st' = [].
Proof.
  apply (create_connection_error_during_probe_registers env_drop_during_probe initial_state
           "web-01" "deploy" web01 (mk_exec "/home/user" "" (Some 0))).
  - discriminate.
  - discriminate.
  - reflexivity.
  - reflexivity.
  - reflexivity.
Defined.

(** A [connection_id] that is absent and that no later UUID draw yields. *)
Definition absent (env : Env) (k : string) (st : State) : Prop :=
  connections st !! k = None /\ forall n, uuid_draws st <= n -> randomUUID env n <> k.

Lemma absent_same (env : Env) (k : string) (st st' : State) :
  connections st' = connections st -> uuid_draws st' = uuid_draws st ->
  absent env k st -> absent env k st'.
Proof. intros Hc Hu [H1 H2]. split; [rewrite Hc; exact H1 | rewrite Hu; exact H2]. Qed.

Ltac absent_same_tac H := apply (absent_same _ _ _ _ eq_refl eq_refl H).

Lemma handle_absent (env : Env) (k : string) (req : Request) (st : State) :
  absent env k st -> absent env k (snd (handle env req st)).
Proof.
  intros H. destruct req as [|mid t| |k' c|k' c|k'|name]; simpl; try exact H.
  - unfold create_connection.
    destruct (truthy mid) as [m|]; [|exact H].
    destruct (truthy t) as [t'|]; [|exact H].
    destruct (findMachine env m) as [machine|]; [|exact H].
    destruct H as [H1 H2].
    destruct (ssh_connect env _ machine);
      [| split; [exact H1|]; intros n Hn; apply H2; simpl in Hn; lia |];
      unfold wrapExec; simpl; destruct (ssh_exec env _ _ _); simpl;
      (split; simpl;
       [ first [ exact H1 | rewrite lookup_insert_ne; [exact H1 | apply H2; lia] ]
       | intros n Hn; apply H2; lia ]).
  - unfold execute_command.
    destruct c as [c|]; [|exact H]. destruct (blank_command (Some c)); [exact H|].
    destruct k' as [k'|]; [|exact H].
    destruct (connections st !! k') as [conn|] eqn:Hk'; [|exact H].
    unfold wrapExec. simpl.
    destruct (ssh_exec env _ _ c); simpl; [|absent_same_tac H].
    destruct (Regex.test cd_regex _); simpl; [|absent_same_tac H].
    destruct (ssh_exec env _ _ "pwd"); simpl; [|absent_same_tac H].
    destruct H as [H1 H2]. split; [|exact H2]. simpl.
    rewrite lookup_insert_ne; [exact H1|]. intros ->. congruence.
  - unfold secure_execute_command.
    destruct c as [c|]; [|exact H]. destruct (blank_command (Some c)); [exact H|].
    destruct k' as [k'|]; [|exact H].
    destruct (connections st !! k') as [conn|]; [|exact H].
    destruct (isCommandDangerous c); [exact H|].
    unfold wrapExec. simpl. destruct (ssh_exec env _ _ c); simpl; absent_same_tac H.
  - unfold close_connection.
    destruct k' as [k'|]; [|exact H].
    destruct (connections st !! k') as [conn|]; [|exact H].
    destruct H as [H1 H2]. split; [|exact H2]. simpl.
    destruct (String.eq_dec k' k) as [->|Hne].
    + apply lookup_delete_eq.
    + rewrite lookup_delete_ne by exact Hne. exact H1.
Qed.

Lemma run_absent (env : Env) (k : string) (reqs : list Request) (st : State) :
  absent env k st -> absent env k (run env reqs st).
Proof.
  revert st. induction reqs as [|req reqs IH]; intros st H; [exact H|].
  simpl. apply IH. apply handle_absent. exact H.
Qed.

(** Operations on an absent [connection_id] fail with [NotFound]
    (for the command handlers, once the command is not blank). *)
Lemma ops_on_absent (env : Env) (k : string) (st : State) :
  connections st !! k = None ->
  close_connection (Some k) st = (inl NotFound, st) /\
  forall c, blank_command (Some c) = false ->
    execute_command env (Some k) (Some c) st = (inl NotFound, st) /\
    secure_execute_command env (Some k) (Some c) st = (inl NotFound, st).
Proof.
  intros Hk. unfold close_connection. rewrite Hk. split; [reflexivity|].
  intros c Hb. unfold execute_command, secure_execute_command. rewrite Hb, Hk.
  split; reflexivity.
Qed.

(** C7: [close_connection] on an absent id fails with [NotFound] and
    changes nothing; on a present id [k] it ends the client and deletes
    [k]; from then on — as long as no later [crypto.randomUUID()] draw
    yields [k] again — [close_connection] on [k] fails with [NotFound], and
    so do [execute_command] and [secure_execute_command] on [k] with a
    non-blank command. *)
Theorem close_connection_spec (env : Env) (st : State) (k : string) :
  (connections st !! k = None -> close_connection (Some k) st = (inl NotFound, st)) /\
  (forall conn, connections st !! k = Some conn ->
     (forall n, uuid_draws st <= n -> randomUUID env n <> k) ->
     exists st1, close_connection (Some k) st = (inr RClosed, st1) /\
       In (client conn) (clients_ended st1) /\
       connections st1 = delete k (connections st) /\
       forall reqs, let st2 := run env reqs st1 in
         close_connection (Some k) st2 = (inl NotFound, st2) /\
         forall c, blank_command (Some c) = false ->
           execute_command env (Some k) (Some c) st2 = (inl NotFound, st2) /\
           secure_execute_command env (Some k) (Some c) st2 = (inl NotFound, st2)).
Proof.
  split.
  - intros Hk. unfold close_connection. rewrite Hk. reflexivity.
  - intros conn Hk Hfresh. unfold close_connection. rewrite Hk.
    eexists. split; [reflexivity|]. split; [simpl; left; reflexivity|].
    split; [reflexivity|].
    intros reqs. cbn zeta.
    assert (Ha : absent env k (run env reqs (set_connections (end_client st (client conn))
                                   (delete k (connections (end_client st (client conn))))))).
    { apply run_absent. split; [apply lookup_delete_eq | exact Hfresh]. }
    apply ops_on_absent. apply Ha.
Qed.

Lemma close_connection_spec_witness :
  exists st1, close_connection (Some "conn-") st_open = (inr RClosed, st1) /\
    In 0 (clients_ended st1) /\ connections st1 = delete "conn-" (connections st_open) /\
    forall reqs, let st2 := run env_ok reqs st1 in
      close_connection (Some "conn-") st2 = (inl NotFound, st2) /\
      forall c, blank_command (Some c) = false ->
        execute_command env_ok (Some "conn-") (Some c) st2 = (inl NotFound, st2) /\
        secure_execute_command env_ok (Some "conn-") (Some c) st2 = (inl NotFound, st2).
Proof.
  apply (proj2 (close_connection_spec env_ok st_open "conn-")
           (mk_conn "conn-" "web-01" "deploy" "/home/user" 0)).
  - reflexivity.
  - intros n Hn. simpl in Hn. destruct n as [|n]; [lia|]. unfold env_ok, uuid. simpl.
    discriminate.
Defined.

(** C7, counterexample: after closing ["conn-"], [execute_command] on it
    with an empty command fails with [InvalidArgument], not [NotFound]. *)
Lemma execute_after_close_blank_command :
  let st1 := snd (close_connection (Some "conn-") st_open) in
  connections st1 !! "conn-" = None /\
  fst (execute_command env_ok (Some "conn-") (Some "") st1) = inl InvalidArgument.
Proof. vm_compute. split; reflexivity. Qed.

End ServerFacts.

(* ------------------------------------------------------------------ *)
(** ** The registry invariant is kept by every request *)
(* ------------------------------------------------------------------ *)

Module RegistryFacts.
Import Classifier Server Demo Registry.
Local Open Scope string_scope.

Lemma ok_same (st st' : State) :
  connections st' = connections st -> clients_ended st' = clients_ended st ->
  next_client st' = next_client st -> registry_ok st -> registry_ok st'.
Proof.
  intros Hc He Hn [H1 H2 H3 H4 H5].
  constructor; rewrite ?Hc, ?He, ?Hn; assumption.
Qed.

Ltac ok_same_tac H :=
  match type of H with
  | registry_ok ?s => apply (ok_same s); [reflexivity | reflexivity | reflexivity | exact H]
  end.

(** The registry after the ready handler's [connections.set]. *)
Local Ltac create_ok_registered H1 H2 H3 H4 H5 :=
  constructor; simpl;
  [ intros k c Hk; apply lookup_insert_Some in Hk as [[<- <-]|[_ Hk]]; [reflexivity|];
    eapply H1; eauto
  | intros k c Hk; apply lookup_insert_Some in Hk as [[_ <-]|[_ Hk]]; simpl; [lia|];
    specialize (H2 _ _ Hk); lia
  | intros x Hx; specialize (H3 _ Hx); lia
  | intros k c Hk; apply lookup_insert_Some in Hk as [[_ <-]|[_ Hk]]; simpl;
    [ intros Hin; specialize (H3 _ Hin); lia | apply (H4 _ _ Hk) ]
  | intros k1 k2 c1 c2 Hk1 Hk2 Hc;
    apply lookup_insert_Some in Hk1 as [[E1 <-]|[N1 Hk1]];
    apply lookup_insert_Some in Hk2 as [[E2 <-]|[N2 Hk2]];
    [ congruence
    | simpl in Hc; specialize (H2 _ _ Hk2); lia
    | simpl in Hc; specialize (H2 _ _ Hk1); lia
    | apply (H5 _ _ _ _ Hk1 Hk2 Hc) ] ].

(** The registry after the ready handler's [client.end()]. *)
Local Ltac create_ok_ended H1 H2 H3 H4 H5 :=
  constructor; simpl;
  [ exact H1
  | intros k c Hk; specialize (H2 _ _ Hk); lia
  | intros x [<-|Hx]; [lia|]; specialize (H3 _ Hx); lia
  | intros k c Hk [E|Hin]; [specialize (H2 _ _ Hk); lia | apply (H4 _ _ Hk Hin)]
  | exact H5 ].

Lemma create_ok (env : Env) mid t (st : State) :
  registry_ok st -> registry_ok (snd (create_connection env mid t st)).
Proof.
  intros H. unfold create_connection.
  destruct (truthy mid) as [m|]; [|exact H].
  destruct (truthy t) as [t'|]; [|exact H].
  destruct (findMachine env m) as [machine|]; [|exact H].
  destruct H as [H1 H2 H3 H4 H5].
  destruct (ssh_connect env _ machine).
  2: { constructor; simpl.
       - exact H1.
       - intros k c Hk. specialize (H2 _ _ Hk). lia.
       - intros x Hx. specialize (H3 _ Hx). lia.
       - exact H4.
       - exact H5. }
  all: unfold wrapExec; simpl; destruct (ssh_exec env _ _ _) as [out|]; simpl.
  1,3: create_ok_registered H1 H2 H3 H4 H5.
  all: create_ok_ended H1 H2 H3 H4 H5.
Qed.

Lemma execute_ok (env : Env) k c (st : State) :
  registry_ok st -> registry_ok (snd (execute_command env k c st)).
Proof.
  intros H. unfold execute_command.
  destruct c as [c|]; [|exact H]. destruct (blank_command (Some c)); [exact H|].
  destruct k as [k|]; [|exact H].
  destruct (connections st !! k) as [conn|] eqn:Hk; [|exact H].
  unfold wrapExec. simpl.
  destruct (ssh_exec env _ _ c); simpl; [|ok_same_tac H].
  destruct (Regex.test cd_regex _); simpl; [|ok_same_tac H].
  destruct (ssh_exec env _ _ "pwd"); simpl; [|ok_same_tac H].
  destruct H as [H1 H2 H3 H4 H5]. constructor; simpl.
  - intros k' c' Hk'. apply lookup_insert_Some in Hk' as [[<- <-]|[_ Hk']]; simpl.
    + apply (H1 _ _ Hk).
    + apply (H1 _ _ Hk').
  - intros k' c' Hk'. apply lookup_insert_Some in Hk' as [[<- <-]|[_ Hk']]; simpl.
    + apply (H2 _ _ Hk).
    + apply (H2 _ _ Hk').
  - exact H3.
  - intros k' c' Hk'. apply lookup_insert_Some in Hk' as [[<- <-]|[_ Hk']]; simpl.
    + apply (H4 _ _ Hk).
    + apply (H4 _ _ Hk').
  - intros k1 k2 c1 c2 Hk1 Hk2 Hc.
    apply lookup_insert_Some in Hk1 as [[E1 <-]|[N1 Hk1]];
    apply lookup_insert_Some in Hk2 as [[E2 <-]|[N2 Hk2]]; simpl in Hc.
    + congruence.
    + subst k1. apply (H5 _ _ _ _ Hk Hk2 Hc).
    + subst k2. apply (H5 _ _ _ _ Hk1 Hk Hc).
    + apply (H5 _ _ _ _ Hk1 Hk2 Hc).
Qed.

Lemma secure_ok (env : Env) k c (st : State) :
  registry_ok st -> registry_ok (snd (secure_execute_command env k c st)).
Proof.
  intros H. unfold secure_execute_command.
  destruct c as [c|]; [|exact H]. destruct (blank_command (Some c)); [exact H|].
  destruct k as [k|]; [|exact H].
  destruct (connections st !! k) as [conn|]; [|exact H].
  destruct (isCommandDangerous c); [exact H|].
  unfold wrapExec. simpl. destruct (ssh_exec env _ _ c); simpl; ok_same_tac H.
Qed.

Lemma close_ok k (st : State) :
  registry_ok st -> registry_ok (snd (close_connection k st)).
Proof.
  intros H. unfold close_connection.
  destruct k as [k|]; [|exact H].
  destruct (connections st !! k) as [conn|] eqn:Hk; [|exact H].
  destruct H as [H1 H2 H3 H4 H5]. constructor; simpl.
  - intros k' c' Hk'. apply lookup_delete_Some in Hk' as [_ Hk']. apply (H1 _ _ Hk').
  - intros k' c' Hk'. apply lookup_delete_Some in Hk' as [_ Hk']. apply (H2 _ _ Hk').
  - intros x [<-|Hx]; [apply (H2 _ _ Hk) | apply (H3 _ Hx)].
  - intros k' c' Hk'. apply lookup_delete_Some in Hk' as [Hne Hk'].
    intros [E|Hin]; [|apply (H4 _ _ Hk' Hin)].
    apply Hne. apply (H5 _ _ _ _ Hk Hk' E).
  - intros k1 k2 c1 c2 Hk1 Hk2 Hc.
    apply lookup_delete_Some in Hk1 as [_ Hk1]. apply lookup_delete_Some in Hk2 as [_ Hk2].
    apply (H5 _ _ _ _ Hk1 Hk2 Hc).
Qed.

Lemma handle_ok (env : Env) (req : Request) (st : State) :
  registry_ok st -> registry_ok (snd (handle env req st)).
Proof.
  intros H. destruct req; simpl;
    auto using create_ok, execute_ok, secure_ok, close_ok.
Qed.

Lemma initial_ok : registry_ok initial_state.
Proof.
  constructor; simpl; try (intros k c Hk; rewrite lookup_empty in Hk; discriminate).
  - intros x [].
  - intros k1 k2 c1 c2 Hk1. rewrite lookup_empty in Hk1. discriminate.
Qed.

(** From start-up, after any sequence of requests, every session is stored
    under its own [connection_id], its SSH client has been created and not
    ended, two sessions never share a client, and every ended client was
    one the server created. *)
Theorem registry_ok_reachable (env : Env) (reqs : list Request) :
  registry_ok (run env reqs initial_state).
Proof.
  generalize initial_ok. generalize initial_state.
  induction reqs as [|req reqs IH]; intros st H; [exact H|].
  simpl. apply IH. apply handle_ok. exact H.
Qed.

End RegistryFacts.

(* ------------------------------------------------------------------ *)
(** ** The classifier's normalisation: [trim] and [toLowerCase] *)
(* ------------------------------------------------------------------ *)

Module NormalizeFacts.
Import Classifier.

Lemma trim_start_spaces (ws l : list ascii) :
  forallb JsChar.is_space ws = true -> trim_start (ws ++ l) = trim_start l.
Proof.
  induction ws as [|c ws IH]; intros H; [reflexivity|].
  simpl in H. apply andb_true_iff in H as [Hc Hws]. simpl. rewrite Hc. apply IH, Hws.
Qed.

Lemma trim_start_app_nonblank (l m : list ascii) :
  trim_start l <> [] -> trim_start (l ++ m) = trim_start l ++ m.
Proof.
  induction l as [|c l IH]; intros H; [contradiction|].
  simpl in *. destruct (JsChar.is_space c); [apply IH, H | reflexivity].
Qed.

Lemma trim_start_app_blank (l m : list ascii) :
  trim_start l = [] -> trim_start (l ++ m) = trim_start m.
Proof.
  induction l as [|c l IH]; intros H; [reflexivity|].
  simpl in *. destruct (JsChar.is_space c); [apply IH, H | discriminate].
Qed.

Lemma trim_start_all_spaces (ws : list ascii) :
  forallb JsChar.is_space ws = true -> trim_start ws = [].
Proof. intros H. rewrite <- (app_nil_r ws). rewrite trim_start_spaces by exact H. reflexivity. Qed.

Lemma forallb_rev {A} (f : A -> bool) (l : list A) : forallb f (rev l) = forallb f l.
Proof.
  induction l as [|x l IH]; [reflexivity|]. simpl. rewrite forallb_app, IH. simpl.
  rewrite andb_true_r, andb_comm. reflexivity.
Qed.

(** [trim] ignores white space added on either side. *)
Lemma trim_pad (ws1 l ws2 : list ascii) :
  forallb JsChar.is_space ws1 = true -> forallb JsChar.is_space ws2 = true ->
  trim (ws1 ++ l ++ ws2) = trim l.
Proof.
  intros H1 H2. unfold trim. rewrite trim_start_spaces by exact H1.
  destruct (trim_start l) eqn:E.
  - rewrite (trim_start_app_blank l ws2 E), (trim_start_all_spaces ws2 H2). reflexivity.
  - rewrite (trim_start_app_nonblank l ws2) by (rewrite E; discriminate).
    rewrite E, rev_app_distr, trim_start_spaces by (rewrite forallb_rev; exact H2).
    reflexivity.
Qed.

Lemma to_lower_is_space (c : ascii) : JsChar.is_space (JsChar.to_lower c) = JsChar.is_space c.
Proof. destruct c as [[] [] [] [] [] [] [] []]; reflexivity. Qed.

Lemma to_lower_idem (c : ascii) : JsChar.to_lower (JsChar.to_lower c) = JsChar.to_lower c.
Proof. destruct c as [[] [] [] [] [] [] [] []]; reflexivity. Qed.

Lemma trim_start_lower (l : list ascii) :
  trim_start (toLowerCase l) = toLowerCase (trim_start l).
Proof.
  induction l as [|c l IH]; [reflexivity|]. simpl. rewrite to_lower_is_space.
  destruct (JsChar.is_space c); [exact IH | reflexivity].
Qed.

(** [trim] and [toLowerCase] commute. *)
Lemma trim_lower (l : list ascii) : trim (toLowerCase l) = toLowerCase (trim l).
Proof.
  unfold trim. rewrite trim_start_lower. unfold toLowerCase.
  rewrite <- map_rev. fold (toLowerCase (rev (trim_start l))).
  rewrite trim_start_lower. unfold toLowerCase. rewrite map_rev. reflexivity.
Qed.

Lemma normalize_lower (l : list ascii) : normalize (toLowerCase l) = normalize l.
Proof.
  unfold normalize. rewrite trim_lower. unfold toLowerCase. rewrite map_map.
  apply map_ext. apply to_lower_idem.
Qed.

Lemma isCommandDangerous_normalize_eq (c1 c2 : string) :
  normalize (list_ascii_of_string c1) = normalize (list_ascii_of_string c2) ->
  isCommandDangerous c1 = isCommandDangerous c2.
Proof. intros E. unfold isCommandDangerous. cbv zeta. rewrite E. reflexivity. Qed.

(** The verdict of [isCommandDangerous] ignores white space added before
    or after the command. *)
Theorem isCommandDangerous_pad (c : string) (ws1 ws2 : list ascii) :
  forallb JsChar.is_space ws1 = true -> forallb JsChar.is_space ws2 = true ->
  isCommandDangerous (string_of_list_ascii (ws1 ++ list_ascii_of_string c ++ ws2))
  = isCommandDangerous c.
Proof.
  intros H1 H2. apply isCommandDangerous_normalize_eq.
  unfold normalize. rewrite list_ascii_of_string_of_list_ascii, trim_pad by assumption.
  reflexivity.
Qed.

Lemma isCommandDangerous_pad_witness :
  isCommandDangerous (string_of_list_ascii
    (list_ascii_of_string "  "%string ++ list_ascii_of_string "sudo reboot"%string
     ++ list_ascii_of_string "   "%string)) = isCommandDangerous "sudo reboot"%string.
Proof. apply isCommandDangerous_pad; reflexivity. Defined.

(** The verdict of [isCommandDangerous] ignores letter case: two commands
    equal after [toLowerCase] get the same verdict. *)
Theorem isCommandDangerous_case_insensitive (c1 c2 : string) :
  toLowerCase (list_ascii_of_string c1) = toLowerCase (list_ascii_of_string c2) ->
  isCommandDangerous c1 = isCommandDangerous c2.
Proof.
  intros E. apply isCommandDangerous_normalize_eq.
  rewrite <- (normalize_lower (list_ascii_of_string c1)),
          <- (normalize_lower (list_ascii_of_string c2)), E.
  reflexivity.
Qed.

Lemma isCommandDangerous_case_insensitive_witness :
  isCommandDangerous "SUDO Reboot"%string = isCommandDangerous "sudo reboot"%string.
Proof. apply isCommandDangerous_case_insensitive. reflexivity. Defined.

End NormalizeFacts.

(* ------------------------------------------------------------------ *)
(** ** Further properties of the tool handlers *)
(* ------------------------------------------------------------------ *)

Module HandlerFacts.
Import Classifier Server Demo Registry.
Local Open Scope string_scope.

(** [findMachine] returns the first inventory entry carrying the id: the
    entry has that id, and no entry before it does. *)
Theorem findMachine_first (env : Env) (mid : string) (m : Machine.t) :
  findMachine env mid = Some m ->
  Machine.machine_id m = mid /\
  exists pre post, availableMachines env = (pre ++ m :: post)%list /\
    forall m', In m' pre -> Machine.machine_id m' <> mid.
Proof.
  unfold findMachine. induction (availableMachines env) as [|x xs IH]; intros H; [discriminate|].
  simpl in H. destruct (String.eqb_spec (Machine.machine_id x) mid) as [E|N].
  - injection H as <-. split; [exact E|]. exists [], xs. split; [reflexivity | intros m' []].
  - destruct (IH H) as [Hm [pre [post [Hl Hpre]]]]. split; [exact Hm|].
    exists (x :: pre), post. split; [simpl; rewrite Hl; reflexivity|].
    intros m' [<-|Hin]; [exact N | apply (Hpre _ Hin)].
Qed.

Lemma findMachine_first_witness :
  Machine.machine_id web01 = "web-01" /\
  exists pre post, availableMachines env_duplicate = (pre ++ web01 :: post)%list /\
    forall m', In m' pre -> Machine.machine_id m' <> "web-01".
Proof. apply findMachine_first. reflexivity. Defined.

(** [create_connection] checks its arguments first: a missing or empty
    [machine_id] or [title] fails with [InvalidArgument] and changes
    nothing, whatever the inventory holds. *)
Theorem create_connection_invalid_argument (env : Env) (mid title : option string)
  (st : State) :
  truthy mid = None \/ truthy title = None ->
  create_connection env mid title st = (inl InvalidArgument, st).
Proof.
  intros [H|H]; unfold create_connection; rewrite H; [reflexivity|].
  destruct (truthy mid); reflexivity.
Qed.

Lemma create_connection_invalid_argument_witness :
  create_connection env_ok (Some "web-01") (Some "") initial_state
  = (inl InvalidArgument, initial_state).
Proof. apply create_connection_invalid_argument. right. reflexivity. Defined.

(** When the client emits ["ready"], and no ["error"] before the [pwd]
    probe returns, a successful [create_connection] draws one UUID and one client,
    issues exactly one [pwd] exec on that client, and registers the session
    under the drawn id with [currentPath] the trimmed [pwd] output; the
    reply carries the same id and path; no other id changes. *)
Theorem create_connection_success (env : Env) (st : State) (mid title : string)
  (machine : Machine.t) (out : ExecResult) :
  mid <> "" -> title <> "" -> findMachine env mid = Some machine ->
  ssh_connect env (next_client st) machine = Ready ->
  ssh_exec env (exec_log st) (next_client st) "pwd" = Some out ->
  exists st',
    create_connection env (Some mid) (Some title) st =
      (inr (RCreated (randomUUID env (uuid_draws st)) mid title (trim_s (stdout out))), st') /\
    connections st' !! randomUUID env (uuid_draws st) =
      Some (mk_conn (randomUUID env (uuid_draws st)) mid title (trim_s (stdout out)) (next_client st)) /\
    (forall k, k <> randomUUID env (uuid_draws st) -> connections st' !! k = connections st !! k) /\
    exec_log st' = (next_client st, "pwd") :: exec_log st /\
    clients_ended st' = clients_ended st /\
    next_client st' = S (next_client st) /\ uuid_draws st' = S (uuid_draws st).
Proof.
  intros Hm Ht Hf Hc Hx. unfold create_connection.
  rewrite (ServerFacts.truthy_nonempty mid Hm), (ServerFacts.truthy_nonempty title Ht), Hf, Hc.
  unfold wrapExec. simpl. rewrite Hx.
  eexists. split; [reflexivity|]. simpl.
  split; [apply lookup_insert_eq|].
  split; [intros k Hk; rewrite lookup_insert_ne; [reflexivity | congruence]|].
  repeat split.
Qed.

Lemma create_connection_success_witness :
  exists st',
    create_connection env_ok (Some "web-01") (Some "deploy") initial_state =
      (inr (RCreated "conn-" "web-01" "deploy" "/home/user"), st') /\
    connections st' !! "conn-" = Some (mk_conn "conn-" "web-01" "deploy" "/home/user" 0) /\
    (forall k, k <> "conn-" -> connections st' !! k = connections initial_state !! k) /\
    exec_log st' = [(0, "pwd")] /\ clients_ended st' = [] /\
    next_client st' = 1 /\ uuid_draws st' = 1.
Proof.
  apply (create_connection_success env_ok initial_state "web-01" "deploy" web01
           (mk_exec "/home/user" "" (Some 0))); try discriminate; reflexivity.
Defined.

(** [create_connection] does not check the drawn id against the registry:
    if it equals the id of an open session, that session is replaced, and
    its client is neither ended nor held by any session any more. *)
Theorem create_connection_id_collision (env : Env) (st : State) (mid title : string)
  (machine : Machine.t) (out : ExecResult) (old : ConnInfo) :
  registry_ok st ->
  connections st !! randomUUID env (uuid_draws st) = Some old ->
  mid <> "" -> title <> "" -> findMachine env mid = Some machine ->
  ssh_connect env (next_client st) machine = Ready ->
  ssh_exec env (exec_log st) (next_client st) "pwd" = Some out ->
  exists st',
    create_connection env (Some mid) (Some title) st =
      (inr (RCreated (randomUUID env (uuid_draws st)) mid title (trim_s (stdout out))), st') /\
    size (connections st') = size (connections st) /\
    ~ In (client old) (clients_ended st') /\
    forall k c, connections st' !! k = Some c -> client c <> client old.
Proof.
  intros Hok Hold Hm Ht Hf Hc Hx. unfold create_connection.
  rewrite (ServerFacts.truthy_nonempty mid Hm), (ServerFacts.truthy_nonempty title Ht), Hf, Hc.
  unfold wrapExec. simpl. rewrite Hx.
  eexists. split; [reflexivity|]. simpl.
  split; [apply map_size_insert_Some; eauto|].
  split; [apply (ok_live _ Hok _ _ Hold)|].
  intros k c Hk Heq. apply lookup_insert_Some in Hk as [[<- <-]|[Hne Hk]].
  - simpl in Heq. pose proof (ok_alloc _ Hok _ _ Hold). lia.
  - apply Hne. apply (ok_distinct _ Hok _ _ _ _ Hold Hk). congruence.
Qed.

Lemma create_connection_id_collision_witness :
  exists st',
    create_connection env_uuid_repeats (Some "web-01") (Some "second") st_open =
      (inr (RCreated "conn-" "web-01" "second" "/home/user"), st') /\
    size (connections st') = size (connections st_open) /\
    ~ In 0 (clients_ended st') /\
    forall k c, connections st' !! k = Some c -> client c <> 0.
Proof.
  apply (create_connection_id_collision env_uuid_repeats st_open "web-01" "second" web01
           (mk_exec "/home/user" "" (Some 0)) (mk_conn "conn-" "web-01" "deploy" "/home/user" 0)).
  - unfold st_open. apply RegistryFacts.create_ok, RegistryFacts.initial_ok.
  - reflexivity.
  - discriminate.
  - discriminate.
  - reflexivity.
  - reflexivity.
  - reflexivity.
Defined.

(** The directory-change test fires exactly for a (trimmed) command
    beginning with the four characters [c], [d], backslash, [s]. *)
Lemma cd_regex_spec (l : list ascii) :
  Regex.test cd_regex l = true <->
  exists rest, l = (["c"; "d"; "\"; "s"]%char ++ rest)%list.
Proof.
  split.
  - unfold Regex.test. intros H. apply existsb_exists in H as [i [_ Hi]].
    unfold Regex.matches_at in Hi. destruct i as [|i].
    2:{ simpl in Hi. exact (False_ind _ (diff_false_true Hi)). }
    destruct l as [|a [|b [|c [|d rest]]]]; simpl in Hi;
      repeat match type of Hi with
             | context [Ascii.eqb ?x ?y] => destruct (Ascii.eqb_spec x y); simpl in Hi
             end; subst; try discriminate.
    exists rest. reflexivity.
  - intros [rest ->]. unfold Regex.test. apply existsb_exists. exists 0.
    split; [apply in_seq; simpl; lia | reflexivity].
Qed.

Lemma cd_regex_spec_witness :
  Regex.test cd_regex (list_ascii_of_string "cd\s x") = true /\
  Regex.test cd_regex (list_ascii_of_string "cd x") = false.
Proof.
  split.
  - apply (proj2 (cd_regex_spec _)). exists (list_ascii_of_string " x"). reflexivity.
  - destruct (Regex.test cd_regex (list_ascii_of_string "cd x")) eqn:E; [|reflexivity].
    apply cd_regex_spec in E as [rest E]. discriminate E.
Defined.

(** [execute_command] and [secure_execute_command] reject a missing or
    blank command with [InvalidArgument] before looking the session up:
    nothing changes, whether or not the [connection_id] exists. *)
Theorem command_handlers_blank (env : Env) (k c : option string) (st : State) :
  blank_command c = true ->
  execute_command env k c st = (inl InvalidArgument, st) /\
  secure_execute_command env k c st = (inl InvalidArgument, st).
Proof.
  intros H. destruct c as [c|]; [|split; reflexivity].
  unfold execute_command, secure_execute_command. rewrite H. split; reflexivity.
Qed.

Lemma command_handlers_blank_witness :
  execute_command env_ok (Some "missing") (Some "   ") initial_state
    = (inl InvalidArgument, initial_state) /\
  secure_execute_command env_ok (Some "missing") (Some "   ") initial_state
    = (inl InvalidArgument, initial_state).
Proof. apply command_handlers_blank. reflexivity. Defined.

(** On an open session whose command runs, [execute_command] sends the
    follow-up [pwd] on the session's client exactly when the trimmed
    command begins with [cd\s]; otherwise only the command is sent. *)
Theorem execute_command_probe_iff (env : Env) (st : State) (k c : string)
  (conn : ConnInfo) (out : ExecResult) :
  blank_command (Some c) = false -> connections st !! k = Some conn ->
  ssh_exec env (exec_log st) (client conn) c = Some out ->
  exec_log (snd (execute_command env (Some k) (Some c) st)) =
    if Regex.test cd_regex (trim (list_ascii_of_string c))
    then (client conn, "pwd") :: (client conn, c) :: exec_log st
    else (client conn, c) :: exec_log st.
Proof.
  intros Hb Hk Hx. unfold execute_command. rewrite Hb, Hk. unfold wrapExec. simpl.
  rewrite Hx. destruct (Regex.test cd_regex _); [|reflexivity].
  simpl. destruct (ssh_exec env _ _ "pwd"); reflexivity.
Qed.

Lemma execute_command_probe_iff_witness :
  exec_log (snd (execute_command env_ok (Some "conn-") (Some "cd\s /tmp") st_open)) =
    [(0, "pwd"); (0, "cd\s /tmp"); (0, "pwd")].
Proof.
  rewrite (execute_command_probe_iff env_ok st_open "conn-" "cd\s /tmp"
             (mk_conn "conn-" "web-01" "deploy" "/home/user" 0) (mk_exec "" "" (Some 0)));
    reflexivity.
Defined.

(** [execute_command] on [k] touches no other session and no other part of
    the state: other ids keep their entries; [k]'s entry, if any, keeps its
    id, machine, title and client (only [currentPath] may change); no
    client is created or ended, no UUID drawn; at most two execs are sent,
    all on [k]'s client. *)
Theorem execute_command_frame (env : Env) (k : string) (c : option string)
  (st st' : State) r :
  execute_command env (Some k) c st = (r, st') ->
  (forall k', k' <> k -> connections st' !! k' = connections st !! k') /\
  (forall conn, connections st !! k = Some conn -> exists path,
     connections st' !! k =
       Some (mk_conn (connection_id conn) (machine_id conn) (title conn) path (client conn))) /\
  (connections st !! k = None -> st' = st) /\
  clients_ended st' = clients_ended st /\ next_client st' = next_client st /\
  uuid_draws st' = uuid_draws st /\
  exists new, exec_log st' = (new ++ exec_log st)%list /\ length new <= 2 /\
    forall e, In e new -> exists conn, connections st !! k = Some conn /\ fst e = client conn.
Proof.
  intros H. unfold execute_command in H.
  assert (Hunchanged : forall st0, st' = st0 -> st0 = st ->
    (forall k', k' <> k -> connections st' !! k' = connections st !! k') /\
    (forall conn, connections st !! k = Some conn -> exists path,
       connections st' !! k =
         Some (mk_conn (connection_id conn) (machine_id conn) (title conn) path (client conn))) /\
    (connections st !! k = None -> st' = st) /\
    clients_ended st' = clients_ended st /\ next_client st' = next_client st /\
    uuid_draws st' = uuid_draws st /\
    exists new, exec_log st' = (new ++ exec_log st)%list /\ length new <= 2 /\
      forall e, In e new -> exists conn, connections st !! k = Some conn /\ fst e = client conn).
  { intros st0 -> ->. split; [reflexivity|]. split.
    { intros conn Hc. exists (currentPath conn). rewrite Hc. destruct conn; reflexivity. }
    split; [reflexivity|]. split; [reflexivity|]. split; [reflexivity|]. split; [reflexivity|].
    exists []. split; [reflexivity|]. split; [simpl; lia | intros _ []]. }
  destruct c as [c|]; [|injection H as _ <-; apply (Hunchanged st); reflexivity].
  destruct (blank_command (Some c)); [injection H as _ <-; apply (Hunchanged st); reflexivity|].
  destruct (connections st !! k) as [conn|] eqn:Hk in H;
    [|injection H as _ <-; apply (Hunchanged st); reflexivity].
  assert (Hlog : forall new, connections st' = connections st ->
    clients_ended st' = clients_ended st -> next_client st' = next_client st ->
    uuid_draws st' = uuid_draws st -> exec_log st' = (new ++ exec_log st)%list ->
    length new <= 2 -> (forall e, In e new -> fst e = client conn) ->
    (forall k', k' <> k -> connections st' !! k' = connections st !! k') /\
    (forall conn, connections st !! k = Some conn -> exists path,
       connections st' !! k =
         Some (mk_conn (connection_id conn) (machine_id conn) (title conn) path (client conn))) /\
    (connections st !! k = None -> st' = st) /\
    clients_ended st' = clients_ended st /\ next_client st' = next_client st /\
    uuid_draws st' = uuid_draws st /\
    exists new, exec_log st' = (new ++ exec_log st)%list /\ length new <= 2 /\
      forall e, In e new -> exists conn, connections st !! k = Some conn /\ fst e = client conn).
  { intros new Hc He Hn Hu Hl Hlen Hnew. rewrite Hc.
    split; [reflexivity|]. split.
    { intros conn' Hc'. exists (currentPath conn'). rewrite Hc'. destruct conn'; reflexivity. }
    split; [congruence|]. split; [exact He|]. split; [exact Hn|]. split; [exact Hu|].
    exists new. split; [exact Hl|]. split; [exact Hlen|]. intros e He'. eauto. }
  unfold wrapExec in H. simpl in H.
  destruct (ssh_exec env _ _ c) as [out|].
  2:{ injection H as _ <-. apply (Hlog [(client conn, c)]); try reflexivity.
      - simpl; lia.
      - intros e [<-|[]]. reflexivity. }
  destruct (Regex.test cd_regex _).
  2:{ injection H as _ <-. apply (Hlog [(client conn, c)]); try reflexivity.
      - simpl; lia.
      - intros e [<-|[]]. reflexivity. }
  simpl in H. destruct (ssh_exec env _ _ "pwd") as [cwd|].
  2:{ injection H as _ <-. apply (Hlog [(client conn, "pwd"); (client conn, c)]);
      try reflexivity; try (simpl; lia).
      intros e [<-|[<-|[]]]; reflexivity. }
  injection H as _ <-. simpl. split; [|split; [|split; [congruence|]]].
  - intros k' Hne. rewrite lookup_insert_ne by congruence. reflexivity.
  - intros conn' Hc'. rewrite Hk in Hc'. injection Hc' as <-.
    exists (trim_s (stdout cwd)). apply lookup_insert_eq.
  - split; [reflexivity|]. split; [reflexivity|]. split; [reflexivity|].
    exists [(client conn, "pwd"); (client conn, c)]. split; [reflexivity|].
    split; [simpl; lia|]. intros e [<-|[<-|[]]]; eauto.
Qed.

Lemma execute_command_frame_witness :
  clients_ended (snd (execute_command env_ok (Some "conn-") (Some "cd\s x") st_open))
    = clients_ended st_open /\
  connections (snd (execute_command env_ok (Some "conn-") (Some "cd\s x") st_open)) !! "other"
    = connections st_open !! "other".
Proof.
  destruct (execute_command_frame env_ok "conn-" (Some "cd\s x") st_open
              (snd (execute_command env_ok (Some "conn-") (Some "cd\s x") st_open))
              (fst (execute_command env_ok (Some "conn-") (Some "cd\s x") st_open)))
    as [Hother [_ [_ [Hended _]]]].
  - reflexivity.
  - split; [exact Hended | apply Hother; discriminate].
Defined.

(** [secure_execute_command] never changes the registry, never creates or
    ends a client and draws no UUID; it sends at most one exec: the command
    itself, on the session's client, and only when the classifier does not
    flag it. *)
Theorem secure_execute_command_frame (env : Env) (k c : option string)
  (st st' : State) r :
  secure_execute_command env k c st = (r, st') ->
  connections st' = connections st /\ clients_ended st' = clients_ended st /\
  next_client st' = next_client st /\ uuid_draws st' = uuid_draws st /\
  (exec_log st' = exec_log st \/
   exists k0 c0 conn, k = Some k0 /\ c = Some c0 /\ connections st !! k0 = Some conn /\
     isCommandDangerous c0 = false /\ exec_log st' = (client conn, c0) :: exec_log st).
Proof.
  intros H. unfold secure_execute_command in H.
  destruct c as [c|]; [|injection H as _ <-; repeat split; left; reflexivity].
  destruct (blank_command (Some c)); [injection H as _ <-; repeat split; left; reflexivity|].
  destruct k as [k|]; [|injection H as _ <-; repeat split; left; reflexivity].
  destruct (connections st !! k) as [conn|] eqn:Hk;
    [|injection H as _ <-; repeat split; left; reflexivity].
  destruct (isCommandDangerous c) eqn:Hd; [injection H as _ <-; repeat split; left; reflexivity|].
  unfold wrapExec in H. simpl in H.
  destruct (ssh_exec env _ _ c); injection H as _ <-; simpl; repeat split; right;
    exists k, c, conn; repeat split; assumption.
Qed.

Lemma secure_execute_command_frame_witness :
  connections (snd (secure_execute_command env_ok (Some "conn-") (Some "ls") st_open))
    = connections st_open.
Proof.
  destruct (secure_execute_command_frame env_ok (Some "conn-") (Some "ls") st_open
              (snd (secure_execute_command env_ok (Some "conn-") (Some "ls") st_open))
              (fst (secure_execute_command env_ok (Some "conn-") (Some "ls") st_open)))
    as [Hc _].
  - reflexivity.
  - exact Hc.
Defined.

(** For a command the classifier allows and the directory test does not
    fire on, [secure_execute_command] behaves exactly as
    [execute_command]. *)
Theorem secure_execute_matches_execute (env : Env) (k : option string) (c : string)
  (st : State) :
  isCommandDangerous c = false ->
  Regex.test cd_regex (trim (list_ascii_of_string c)) = false ->
  secure_execute_command env k (Some c) st = execute_command env k (Some c) st.
Proof.
  intros Hd Hcd. unfold secure_execute_command, execute_command.
  destruct (blank_command (Some c)); [reflexivity|].
  destruct k as [k|]; [|reflexivity].
  destruct (connections st !! k) as [conn|]; [|reflexivity].
  rewrite Hd. unfold wrapExec. simpl.
  destruct (ssh_exec env _ _ c); [rewrite Hcd|]; reflexivity.
Qed.

Lemma secure_execute_matches_execute_witness :
  secure_execute_command env_ok (Some "conn-") (Some "ls -la") st_open
  = execute_command env_ok (Some "conn-") (Some "ls -la") st_open.
Proof. apply secure_execute_matches_execute; vm_compute; reflexivity. Defined.

End HandlerFacts.
